(** * GPToeplitz: the Toeplitz solver wrapper and the Toeplitz covariance helpers

    Shallow embedding of [src/GPToeplitz.py] of GeePea.

    - Python floats (numpy float64) are modelled by the real numbers of the
      Standard Library, made a MathComp field below, so that determinants
      and [ln] can be used side by side.  Arithmetic is exact.
    - numpy arrays are [seq R]; 2-D numpy matrices are row lists [seq (seq R)].
    - Arrays that are passed by reference (the [x] buffer of [LTZSolve]) live
      in an explicit store indexed by object identities.
    - The native routine [LevinsonTrenchZoharSolve] is loaded through ctypes
      from a shared object that is not part of the sources; it is modelled
      from the spec (section 4.1 of the spec), see [LTZSolveC_model]. *)

From Stdlib Require Import ZArith Reals ClassicalEpsilon FunctionalExtensionality Lia Lra Psatz.
From HB Require Import structures.
From mathcomp Require Import boot ssralg matrix ring_tactic.

Set Implicit Arguments.
Unset Strict Implicit.
Unset Printing Implicit Defensive.

(** ** The reals as a MathComp field *)

Definition eqR (x y : R) : bool := if Req_EM_T x y then true else false.

Lemma eqRP : Equality.axiom eqR.
Proof. move=> x y; rewrite /eqR; case: Req_EM_T => H; by constructor. Qed.

HB.instance Definition _ := hasDecEq.Build R eqRP.

Definition findR (P : pred R) (n : nat) : option R :=
  match excluded_middle_informative (exists x, P x) with
  | left H => Some (proj1_sig (constructive_indefinite_description _ H))
  | right _ => None
  end.

Lemma findR_correct P n x : findR P n = Some x -> P x.
Proof.
rewrite /findR; case: excluded_middle_informative => // H [<-].
exact: proj2_sig (constructive_indefinite_description _ H).
Qed.

Lemma findR_complete (P : pred R) : (exists x, P x) -> exists n, findR P n.
Proof.
by move=> H; exists 0%nat; rewrite /findR; case: excluded_middle_informative.
Qed.

Lemma findR_ext (P Q : pred R) : P =1 Q -> findR P =1 findR Q.
Proof. by move=> H; have -> : P = Q by apply: functional_extensionality. Qed.

HB.instance Definition _ :=
  hasChoice.Build R findR_correct findR_complete findR_ext.

Lemma Rplus_assoc' : associative Rplus.
Proof. by move=> *; rewrite Rplus_assoc. Qed.
Lemma Rplus_comm' : commutative Rplus.
Proof. by move=> *; rewrite Rplus_comm. Qed.
Lemma Rplus_0_l' : left_id R0 Rplus.
Proof. by move=> *; rewrite Rplus_0_l. Qed.
Lemma Rplus_opp_l' : left_inverse R0 Ropp Rplus.
Proof. by move=> *; rewrite Rplus_opp_l. Qed.

HB.instance Definition _ :=
  GRing.isZmodule.Build R Rplus_assoc' Rplus_comm' Rplus_0_l' Rplus_opp_l'.

Lemma Rmult_assoc' : associative Rmult.
Proof. by move=> *; rewrite Rmult_assoc. Qed.
Lemma Rmult_comm' : commutative Rmult.
Proof. by move=> *; rewrite Rmult_comm. Qed.
Lemma Rmult_1_l' : left_id R1 Rmult.
Proof. by move=> *; rewrite Rmult_1_l. Qed.
Lemma Rmult_plus_distr_r' : left_distributive Rmult Rplus.
Proof. by move=> *; rewrite Rmult_plus_distr_r. Qed.
Lemma R1_neq_0 : (R1 : R) != R0.
Proof. apply/eqP; exact: R1_neq_R0. Qed.

HB.instance Definition _ := GRing.Zmodule_isComNzRing.Build R
  Rmult_assoc' Rmult_comm' Rmult_1_l' Rmult_plus_distr_r' R1_neq_0.

(** The inverse of the field: [Rinv] away from 0, and 0 at 0. *)
Definition Rinv0 (x : R) : R := if x == R0 then R0 else Rinv x.

Lemma Rinv0_l x : x != R0 -> Rmult (Rinv0 x) x = R1.
Proof. by move=> /eqP H; rewrite /Rinv0 (negbTE (introN eqP H)); exact: Rinv_l. Qed.

Lemma Rinv0_0 : Rinv0 R0 = R0.
Proof. by rewrite /Rinv0 eqxx. Qed.

HB.instance Definition _ := GRing.ComNzRing_isField.Build R Rinv0_l Rinv0_0.

Import GRing.Theory.
Local Open Scope ring_scope.

(** ** The Levinson-Trench-Zohar recursion (spec section 4.1)

    Generic over a field.  At order [k] the state holds the forward filter
    [filt] of length [k] (first coefficient 1), the current pivot [piv]
    (prediction-error power), the partial solution [sol] of length [k] and
    the pivots met so far. *)

Section Levinson.

Variable F : fieldType.

(** [|i - j|] on indices. *)
Definition lag (i j : nat) : nat := (i - j) + (j - i).

(** The cross-correlation [sum_{j<k} a[k-j] v[j]] of the generating vector
    with the first [k] entries of [v]. *)
Definition lev_dot (a v : seq F) (k : nat) : F :=
  \sum_(j < k) a`_(k - j) * v`_j.

Record lev_state := LevState {
  filt : seq F;
  piv : F;
  sol : seq F;
  pivots : seq F
}.

(** Step 1: order 1. *)
Definition lev_init (a b : seq F) : lev_state :=
  LevState [:: 1] a`_0 [:: b`_0 / a`_0] [:: a`_0].

(** Step 2: from order [k] to order [k+1]. *)
Definition lev_step (a b : seq F) (s : lev_state) : lev_state :=
  let k := size (filt s) in
  let f := filt s in
  let gamma := lev_dot a f k / piv s in
  let f' := [seq f`_i - gamma * (0 :: rev f)`_i | i <- iota 0 k.+1] in
  let p' := piv s * (1 - gamma ^+ 2) in
  let mu := (b`_k - lev_dot a (sol s) k) / p' in
  let x' := [seq (sol s)`_i + mu * (rev f')`_i | i <- iota 0 k.+1] in
  LevState f' p' x' (rcons (pivots s) p').

Fixpoint lev_iter (a b : seq F) (m : nat) (s : lev_state) : lev_state :=
  if m is m'.+1 then lev_iter a b m' (lev_step a b s) else s.

(** The solution and the pivots of order [n]; nothing for [n = 0]. *)
Definition levinson (a b : seq F) (n : nat) : seq F * seq F :=
  if n is n'.+1 then
    let s := lev_iter a b n' (lev_init a b) in (sol s, pivots s)
  else ([::], [::]).

(** The dense symmetric Toeplitz matrix [A[i][j] = a[|i-j|]] of order [n]. *)
Definition toeplitz_mx (a : seq F) (n : nat) : 'M[F]_n :=
  \matrix_(i, j) a`_(lag i j).

(** A sequence as a column vector of length [n]. *)
Definition colv (v : seq F) (n : nat) : 'cV[F]_n := \col_i v`_i.

End Levinson.


(** ** The Python wrapper [LTZSolve] *)

(** Exceptions raised by the modelled Python code. *)
Inductive exc := AssertionError | TypeError | IndexError | ValueError.

(** Python values returned by the modelled functions: a float, a numpy
    array given by its object identity, a tuple. *)
Inductive pyval :=
| VFloat of R
| VArray of nat
| VTuple of seq pyval.

(** The heap of numpy float64 arrays, by object identity. *)
Definition store := nat -> seq R.

Definition upd (st : store) (id : nat) (v : seq R) : store :=
  fun j => if j == id then v else st j.

(** ctypes' conversion of a Python int to the [c_int] argument: the low 32
    bits, read as a two's-complement signed int, without overflow check. *)
Definition c_int (n : nat) : Z :=
  let r := (Z.of_nat n mod 2 ^ 32)%Z in
  if (r <? 2 ^ 31)%Z then r else (r - 2 ^ 32)%Z.

(** The native routine as ctypes binds it: [LTZSolveC(a, x, b, n)] receives
    three float64 buffers and a C int and returns a C double
    ([restype = c_double]); its only other effect is on the buffers. *)
Definition native := store -> nat -> nat -> nat -> Z -> store * R.

(** [LTZSolve(a, b, x)]: two assertions on the sizes, then the native call,
    then [return logdetK, x]. *)
Definition LTZSolve (LTZSolveC : native) (st : store) (a b x : nat)
    : (exc + pyval) * store :=
  if size (st a) != size (st b) then (inl AssertionError, st)
  else if size (st a) != size (st x) then (inl AssertionError, st)
  else
    let (st', logdetK) := LTZSolveC st a x b (c_int (size (st a))) in
    (inr (VTuple [:: VFloat logdetK; VArray x]), st').

(** A Python call of [LTZSolve] with positional array arguments: the
    function takes exactly three. *)
Definition call_LTZSolve (LTZSolveC : native) (st : store) (args : seq nat)
    : (exc + pyval) * store :=
  if args is [:: a; b; x] then LTZSolve LTZSolveC st a b x
  else (inl TypeError, st).

(** Modelled from the spec: the native [LevinsonTrenchZoharSolve], whose
    source is not part of the repository's Python sources.  It runs the
    recursion of spec section 4.1 on the first [n] entries of [a] and [b]
    (none when [n <= 0]), writes the solution into [x[0..n-1]] and returns
    the sum of the logs of the pivots.  What the native routine does when
    [x] shares storage with [a] or [b] is not known: the spec forbids it
    (spec section 5) and says the in-place sweep would corrupt [b].  The
    model reads [a] and [b] before writing [x], so it is only meaningful for
    disjoint buffers, and every statement below about the model's result
    assumes [x] distinct from [a] and [b]. *)
Definition LTZSolveC_model : native := fun st a x b n =>
  let k := Z.to_nat n in
  let (xs, ps) := levinson (st a) (st b) k in
  (upd st x (xs ++ drop k (st x)), \sum_(q <- ps) ln q).

(** Sample inputs: [a = [2.]], [b = [1.]], [x = [0.]] at identities 0, 1
    and 2; a store of empty arrays; a sample of size 2. *)
Section Samples.
Local Open Scope R_scope.

Definition sample_store : store := fun j =>
  if j == 0%nat then [:: 2] else if j == 1%nat then [:: 1] else [:: 0].

Definition empty_store : store := fun _ => [::].


End Samples.

(** ** The self-test of the [__main__] block *)

Section MainData.
Local Open Scope R_scope.

Definition main_a : seq R := [:: 30; 1; 0.3; 0.2; 0.1; 0.2; 0.3; 15; 12; 8].
Definition main_b : seq R := [:: 1; 1.2; 2.3; 0.2; 1; 2; 1.3; 1; 5; 0.2].

End MainData.

(** The [__main__] block: [a] and [b] are fresh arrays (identities 0 and 1);
    the dense log-determinant and the dense solution (a fresh matrix object,
    identity 2) are printed; then [logdet, x = LTZSolve(a, b)] and the
    second print.  Result: the uncaught exception, if any, and the printed
    values. *)
Definition main_block (LTZSolveC : native) : (exc + unit) * seq pyval :=
  let st0 : store := fun j => if j == 0%nat then main_a
                              else if j == 1%nat then main_b else [::] in
  let A := toeplitz_mx main_a (size main_a) in
  let logdet := ln (\det A) in
  let xd := invmx A *m colv main_b (size main_b) in
  let st1 := upd st0 2 [seq xd i 0 | i <- enum 'I_(size main_b)] in
  let out1 := [:: VFloat logdet; VArray 2] in
  match call_LTZSolve LTZSolveC st1 [:: 0%nat; 1%nat] with
  | (inl e, _) => (inl e, out1)
  | (inr (VTuple [:: v1; v2]), _) => (inr tt, out1 ++ [:: v1; v2])
  | (inr _, _) => (inl ValueError, out1)
  end.

(** ** numpy / scipy dense matrices

    A 2-D array is the list of its rows. *)
Definition mat := seq (seq R).

Definition mentry (M : mat) (i j : nat) : R := (nth [::] M i)`_j.

Definition ncols (M : mat) : nat := size (nth [::] M 0).

(** [scipy.linalg.toeplitz(c, r)]: [vals = concatenate((c[::-1], r[1:]))]
    read with strides [(-1, 1)] from [vals[len(c)-1]], so that
    [out[i][j] = vals[len(c)-1-i+j]], of shape [(len(c), len(r))]. *)
Definition toeplitz (c r : seq R) : mat :=
  let vals := rev c ++ behead r in
  [seq [seq vals`_((size c).-1 - i + j) | j <- iota 0 (size r)]
   | i <- iota 0 (size c)].

(** [scipy.linalg.toeplitz(c)]: [r] defaults to [c] (conjugated; real data). *)
Definition toeplitz1 (c : seq R) : mat := toeplitz c c.

(** [np.diag(v)] for a 1-D [v]: the square matrix with [v] on its diagonal. *)
Definition diag_of (v : seq R) : mat :=
  [seq [seq (if i == j then v`_i else 0) | j <- iota 0 (size v)]
   | i <- iota 0 (size v)].

(** [np.diag(M)] for a 2-D [M] (1-D also for an [np.matrix]): its diagonal. *)
Definition diag_part (M : mat) : seq R :=
  [seq mentry M i i | i <- iota 0 (minn (size M) (ncols M))].

(** The product [A * B] of 2-D arrays one of which is an [np.matrix]: the
    matrix product.  The operands come with their numbers of columns [ca]
    and [cb], which a list of rows does not record when it is empty (a
    [(0, n)] array); [ValueError] on a shape mismatch.  The result has [cb]
    columns. *)
Definition matmul (A : mat) (ca : nat) (B : mat) (cb : nat) : option mat :=
  if ca == size B then
    Some [seq [seq \sum_(l < size B) mentry A i l * mentry B l j
               | j <- iota 0 cb] | i <- iota 0 (size A)]
  else None.

(** The in-place [A += B] of numpy, [A] with [ca] columns and [B] with [cb]
    columns: each dimension of [B] equals that of [A] or is 1 and is then
    broadcast; otherwise [ValueError].  The result has the shape of [A]. *)
Definition iadd (A : mat) (ca : nat) (B : mat) (cb : nat) : option mat :=
  if ((size B == size A) || (size B == 1%nat)) && ((cb == ca) || (cb == 1%nat)) then
    Some [seq [seq mentry A i j +
                   mentry B (if size B == 1%nat then 0%nat else i)
                            (if cb == 1%nat then 0%nat else j)
               | j <- iota 0 ca] | i <- iota 0 (size A)]
  else None.

(** [M * c] for a scalar [c]. *)
Definition mscale (M : mat) (c : R) : mat := [seq [seq v * c | v <- row] | row <- M].

(** [np.identity(n)]. *)
Definition identity (n : nat) : mat := diag_of (nseq n 1).

(** [theta[-1]]: [IndexError] on an empty list. *)
Definition last_elem (theta : seq R) : option R :=
  if theta is [::] then None else Some (last 0 theta).

(** What a mean function returns: a float or a 1-D array (spec section 6:
    scalar-or-vector). *)
Inductive mfval :=
| MScalar of R
| MArray of seq R.

(** [v * np.ones(n)]: a float is repeated [n] times; a 1-D array of length
    [L] broadcasts against the shape [(n,)] when [L = n] (itself), [L = 1]
    (its entry repeated [n] times) or [n = 1] (itself); otherwise
    [ValueError].  Multiplying by [1.0] is exact. *)
Definition times_ones (v : mfval) (n : nat) : option (seq R) :=
  match v with
  | MScalar c => Some (nseq n c)
  | MArray u =>
    if size u == n then Some u
    else if size u == 1%nat then Some (nseq n u`_0)
    else if n == 1%nat then Some u
    else None
  end.

Section Covariance.

(** The kernel and the mean function are parameters of the helpers. *)
Variable Pt : Type.
Variable ToeplitzKernel : seq Pt -> seq Pt -> seq R -> bool -> seq R.
Variables Pars Args : Type.
Variable mf : Pars -> Args -> mfval.

(** [CovarianceMatrixBlockToeplitz(theta, X, Y, ToeplitzKernel)]. *)
Definition CovarianceMatrixBlockToeplitz (theta : seq R) (X Y : seq Pt) : mat :=
  let a := ToeplitzKernel X Y theta false in
  let b := ToeplitzKernel Y X theta false in
  toeplitz a b.

(** [CovarianceMatrixFullToeplitzMult(theta, X, ToeplitzKernel, mf, mf_pars, mf_args)]:
    [m] first, then the kernel matrix, the products left to right, then
    [theta[-1]] and the in-place addition. *)
Definition CovarianceMatrixFullToeplitzMult (theta : seq R) (X : seq Pt)
    (mf_pars : Pars) (mf_args : Args) : exc + mat :=
  match times_ones (mf mf_pars mf_args) (size X) with
  | None => inl ValueError
  | Some m =>
    let k := ToeplitzKernel X X theta false in
    let K := toeplitz1 k in
    match matmul (diag_of m) (size m) K (size k) with
    | None => inl ValueError
    | Some DK =>
      match matmul DK (size k) (diag_of m) (size m) with
      | None => inl ValueError
      | Some Kp =>
        match last_elem theta with
        | None => inl IndexError
        | Some t =>
          match iadd Kp (size m) (mscale (identity (size X)) (t ^+ 2)) (size X) with
          | None => inl ValueError
          | Some Kp' => inr Kp'
          end
        end
      end
    end
  end.

(** [CovarianceMatrixCornerDiagToeplitzMult(theta, X, ToeplitzKernel, mf,
    mf_pars, mf_args_pred, WhiteNoise)]; [np.diag] of an [np.matrix] is its
    1-D diagonal. *)
Definition CovarianceMatrixCornerDiagToeplitzMult (theta : seq R) (X : seq Pt)
    (mf_pars : Pars) (mf_args_pred : Args) (WhiteNoise : bool) : exc + mat :=
  let k := ToeplitzKernel X X theta false in
  let K := toeplitz1 k in
  match times_ones (mf mf_pars mf_args_pred) (size X) with
  | None => inl ValueError
  | Some ms =>
    match matmul (diag_of ms) (size ms) K (size k) with
    | None => inl ValueError
    | Some DK =>
      match matmul DK (size k) (diag_of ms) (size ms) with
      | None => inl ValueError
      | Some Kp =>
        let Kp' :=
          if WhiteNoise then
            match last_elem theta with
            | None => inl IndexError
            | Some t =>
              match iadd Kp (size ms) (mscale (identity (size X)) (t ^+ 2)) (size X) with
              | None => inl ValueError
              | Some Kp'' => inr Kp''
              end
            end
          else inr Kp in
        match Kp' with
        | inl e => inl e
        | inr Kp'' => inr (diag_of (diag_part Kp''))
        end
      end
    end
  end.

(** [CovarianceMatrixToeplitz(theta, X, ToeplitzKernel)]: the kernel vector
    itself, with white noise. *)
Definition CovarianceMatrixToeplitz (theta : seq R) (X : seq Pt) : seq R :=
  ToeplitzKernel X X theta true.

(** [CovarianceMatrixFullToeplitz(theta, X, ToeplitzKernel)]. *)
Definition CovarianceMatrixFullToeplitz (theta : seq R) (X : seq Pt) : mat :=
  toeplitz1 (ToeplitzKernel X X theta true).

(** [CovarianceMatrixCornerDiagToeplitz(theta, X, ToeplitzKernel, WhiteNoise)]. *)
Definition CovarianceMatrixCornerDiagToeplitz (theta : seq R) (X : seq Pt)
    (WhiteNoise : bool) : mat :=
  diag_of (diag_part (toeplitz1 (ToeplitzKernel X X theta WhiteNoise))).

(** [CovarianceMatrixCornerFullToeplitz(theta, X, ToeplitzKernel, WhiteNoise)]. *)
Definition CovarianceMatrixCornerFullToeplitz (theta : seq R) (X : seq Pt)
    (WhiteNoise : bool) : mat :=
  toeplitz1 (ToeplitzKernel X X theta WhiteNoise).

(** [CovarianceMatrixBlockToeplitzMult(theta, X, Y, ToeplitzKernel, mf,
    mf_pars, mf_args_pred, mf_args)]: [K] has [len(b)] columns, also when
    it has no rows. *)
Definition CovarianceMatrixBlockToeplitzMult (theta : seq R) (X Y : seq Pt)
    (mf_pars : Pars) (mf_args_pred mf_args : Args) : exc + mat :=
  let a := ToeplitzKernel X Y theta false in
  let b := ToeplitzKernel Y X theta false in
  let K := toeplitz a b in
  match times_ones (mf mf_pars mf_args) (size Y) with
  | None => inl ValueError
  | Some m =>
    match times_ones (mf mf_pars mf_args_pred) (size X) with
    | None => inl ValueError
    | Some ms =>
      match matmul (diag_of ms) (size ms) K (size b) with
      | None => inl ValueError
      | Some DK =>
        match matmul DK (size b) (diag_of m) (size m) with
        | None => inl ValueError
        | Some Kp => inr Kp
        end
      end
    end
  end.

(** [CovarianceMatrixCornerFullToeplitzMult(theta, X, ToeplitzKernel, mf,
    mf_pars, mf_args_pred, WhiteNoise)]. *)
Definition CovarianceMatrixCornerFullToeplitzMult (theta : seq R) (X : seq Pt)
    (mf_pars : Pars) (mf_args_pred : Args) (WhiteNoise : bool) : exc + mat :=
  let k := ToeplitzKernel X X theta false in
  let K := toeplitz1 k in
  match times_ones (mf mf_pars mf_args_pred) (size X) with
  | None => inl ValueError
  | Some ms =>
    match matmul (diag_of ms) (size ms) K (size k) with
    | None => inl ValueError
    | Some DK =>
      match matmul DK (size k) (diag_of ms) (size ms) with
      | None => inl ValueError
      | Some Kp =>
        if WhiteNoise then
          match last_elem theta with
          | None => inl IndexError
          | Some t =>
            match iadd Kp (size ms) (mscale (identity (size X)) (t ^+ 2)) (size X) with
            | None => inl ValueError
            | Some Kp' => inr Kp'
            end
          end
        else inr Kp
      end
    end
  end.

End Covariance.

(** * Proofs *)

Section LevinsonFacts.

Variable F : fieldType.
Variables a b : seq F.



Lemma lag_rev k i j : (i < k)%nat -> (j < k)%nat -> lag i (k.-1 - j) = lag (k.-1 - i) j.
Proof.
move=> /ltP Hi /ltP Hj; rewrite /lag -!minusE -!plusE /=. lia.
Qed.




















Lemma lev_iter_size m s : size (filt s) = size (sol s) ->
  size (sol (lev_iter a b m s)) = (size (sol s) + m)%nat.
Proof.
elim: m s => [|m IH] s Hs /=; first by rewrite addn0.
rewrite IH /lev_step /= ?size_map ?size_iota ?Hs ?addnS //.
Qed.

Lemma levinson_size n : size (levinson a b n).1 = n.
Proof. by case: n => // n; rewrite /= lev_iter_size. Qed.

End LevinsonFacts.

(** ** Positive-definite inputs over the reals *)




Section LevinsonReal.

Variables a b : seq R.









End LevinsonReal.

Lemma LTZSolve_sizes_ok (c : native) st a b x :
  size (st a) = size (st b) -> size (st a) = size (st x) ->
  LTZSolve c st a b x =
    (inr (VTuple [:: VFloat (c st a x b (c_int (size (st a)))).2; VArray x]),
     (c st a x b (c_int (size (st a)))).1).
Proof.
move=> Hab Hax; rewrite /LTZSolve Hab eqxx /= -Hab Hax eqxx /= -Hax.
by case: (c st a x b (c_int (size (st a)))).
Qed.

Lemma upd_eq st id v : upd st id v id = v.
Proof. by rewrite /upd eqxx. Qed.

Lemma upd_neq st id v j : j != id -> upd st id v j = st j.
Proof. by rewrite /upd => /negbTE ->. Qed.




Lemma c_int_le n : (Z.to_nat (c_int n) <= n)%nat.
Proof.
apply/leP; rewrite /c_int.
have H0 : (0 < 2 ^ 32)%Z by lia.
have H1 := Z.mod_pos_bound (Z.of_nat n) _ H0.
have H2 := Z.mod_le (Z.of_nat n) _ (Nat2Z.is_nonneg n) H0.
case: Z.ltb_spec => _; lia.
Qed.





(** ** Claims about the solver wrapper *)



(** C2 (counterexample): on the sample input [a = [2.]], [b = [1.]],
    [x = [0.]] the value returned is the tuple [(logdet, x)]: a float first
    and the array second, never [(x, logdet)]. *)
Lemma LTZSolve_order_sample :
  (exists ld, (LTZSolve LTZSolveC_model sample_store 0 1 2).1 =
                inr (VTuple [:: VFloat ld; VArray 2])) /\
  ~ (exists i ld, (LTZSolve LTZSolveC_model sample_store 0 1 2).1 =
                    inr (VTuple [:: VArray i; VFloat ld])).
Proof.
split; first by eexists.
by case=> i [ld]; rewrite /LTZSolve /=.
Qed.

(** C2 (amended): whenever the sizes of [a], [b] and [x] agree, [LTZSolve]
    returns the pair [(logdet, x)] in that order: first the float returned
    by the native routine, then the [x] array itself. *)
Theorem LTZSolve_returns_logdet_x (c : native) (st : store) (a b x : nat) :
  size (st a) = size (st b) -> size (st a) = size (st x) ->
  exists st', LTZSolve c st a b x =
    (inr (VTuple [:: VFloat (c st a x b (c_int (size (st a)))).2; VArray x]), st').
Proof. by move=> Hab Hax; eexists; apply: LTZSolve_sizes_ok. Qed.

Lemma LTZSolve_returns_logdet_x_witness :
  exists st', LTZSolve LTZSolveC_model sample_store 0 1 2 =
    (inr (VTuple [:: VFloat (LTZSolveC_model sample_store 0 2 1
                               (c_int (size (sample_store 0)))).2; VArray 2]), st').
Proof. by apply: LTZSolve_returns_logdet_x. Defined.

(** C3 (counterexample): three empty arrays ([n = 0]) are not rejected:
    the call goes through to the native routine and returns a value. *)
Lemma LTZSolve_accepts_empty :
  exists v st', LTZSolve LTZSolveC_model empty_store 0 1 2 = (inr v, st').
Proof. by do 2 eexists. Qed.

(** C3 (amended): [LTZSolve] fails, with [AssertionError] and the store
    untouched (the native routine is not called), exactly when the size of
    [a] differs from that of [b] or of [x]; when the three sizes agree,
    including size 0, the native routine is called and a value returned. *)
Theorem LTZSolve_dimension_check (c : native) (st : store) (a b x : nat) :
  ((size (st a) != size (st b)) || (size (st a) != size (st x)) ->
     LTZSolve c st a b x = (inl AssertionError, st)) /\
  (~~ ((size (st a) != size (st b)) || (size (st a) != size (st x))) ->
     exists v, LTZSolve c st a b x = (inr v, (c st a x b (c_int (size (st a)))).1)).
Proof.
split.
- rewrite /LTZSolve; case: ifP => //= _ ->; by [].
- rewrite negb_or !negbK => /andP [/eqP Hab /eqP Hax].
  by eexists; apply: LTZSolve_sizes_ok.
Qed.

(** C5: when the buffer [x] is distinct from [a] and [b], a call of
    [LTZSolve] writes only [x]: every other array, [a] and [b] among them,
    is unchanged; the result is either an exception or a tuple whose first
    component is a float value. *)
Theorem LTZSolve_frame (st : store) (a b x : nat) :
  x != a -> x != b ->
  [/\ forall j, j != x -> (LTZSolve LTZSolveC_model st a b x).2 j = st j,
      (LTZSolve LTZSolveC_model st a b x).2 a = st a,
      (LTZSolve LTZSolveC_model st a b x).2 b = st b
    & (exists e, (LTZSolve LTZSolveC_model st a b x).1 = inl e) \/
      exists ld, (LTZSolve LTZSolveC_model st a b x).1 =
                   inr (VTuple [:: VFloat ld; VArray x])].
Proof.
move=> Hxa Hxb.
rewrite /LTZSolve.
case: ifP => _; first by split => //; left; eexists.
case: ifP => _; first by split => //; left; eexists.
rewrite /LTZSolveC_model; case: (levinson _ _ _) => xs ps /=.
split.
- by move=> j Hj; rewrite upd_neq.
- by rewrite upd_neq // eq_sym.
- by rewrite upd_neq // eq_sym.
- by right; eexists.
Qed.

Lemma LTZSolve_frame_witness :
  [/\ forall j, j != 2%nat -> (LTZSolve LTZSolveC_model sample_store 0 1 2).2 j = sample_store j,
      (LTZSolve LTZSolveC_model sample_store 0 1 2).2 0%nat = sample_store 0,
      (LTZSolve LTZSolveC_model sample_store 0 1 2).2 1%nat = sample_store 1
    & (exists e, (LTZSolve LTZSolveC_model sample_store 0 1 2).1 = inl e) \/
      exists ld, (LTZSolve LTZSolveC_model sample_store 0 1 2).1 =
                   inr (VTuple [:: VFloat ld; VArray 2])].
Proof. by apply: LTZSolve_frame. Defined.

(** C6: the [__main__] block raises [TypeError] at [LTZSolve(a, b)], which
    is called with two arguments where three are required, whatever the
    native routine does: only the dense log-determinant and the dense
    solution are printed, and no comparison with the solver takes place. *)
Theorem main_block_TypeError (LTZSolveC : native) :
  main_block LTZSolveC =
    (inl TypeError,
     [:: VFloat (ln (\det (toeplitz_mx main_a (size main_a)))); VArray 2]).
Proof. by []. Qed.

(** C7: calling [LTZSolve] a second time with the same arrays, on the store
    left by the first call, with [x] distinct from [a] and [b], gives the
    same result and leaves the same store: nothing is carried over between
    calls. *)
Theorem LTZSolve_twice (st : store) (a b x : nat) :
  x != a -> x != b ->
  let (r1, st1) := LTZSolve LTZSolveC_model st a b x in
  let (r2, st2) := LTZSolve LTZSolveC_model st1 a b x in
  r2 = r1 /\ st2 =1 st1.
Proof.
move=> Hxa Hxb.
rewrite /LTZSolve.
case Eab: (size (st a) != size (st b)) => /=; first by rewrite Eab.
case Eax: (size (st a) != size (st x)) => /=; first by rewrite Eab Eax.
rewrite /LTZSolveC_model.
set k := Z.to_nat (c_int (size (st a))).
have Hk : (k <= size (st x))%nat by move/negbFE/eqP: Eax => <-; exact: c_int_le.
have Hs := levinson_size (st a) (st b) k.
case E: (levinson (st a) (st b) k) Hs => [xs ps] /= Hs.
set v := xs ++ drop k (st x).
have Hv : size v = size (st x) by rewrite size_cat size_drop Hs subnKC.
have Ha : upd st x v a = st a by rewrite upd_neq // eq_sym.
have Hb : upd st x v b = st b by rewrite upd_neq // eq_sym.
have Hd : drop k v = drop k (st x) by rewrite /v drop_size_cat.
rewrite Ha Hb upd_eq Hv Eab Eax /= -/k E /= Hd.
by split => // j; rewrite /upd /=; case: (j == x).
Qed.

Lemma LTZSolve_twice_witness :
  let (r1, st1) := LTZSolve LTZSolveC_model sample_store 0 1 2 in
  let (r2, st2) := LTZSolve LTZSolveC_model st1 0 1 2 in
  r2 = r1 /\ st2 =1 st1.
Proof. exact: (@LTZSolve_twice sample_store 0 1 2 isT isT). Defined.

(** ** Dense matrices *)

Lemma mentry_grid r c (f : nat -> nat -> R) i j : (i < r)%nat -> (j < c)%nat ->
  mentry [seq [seq f i j | j <- iota 0 c] | i <- iota 0 r] i j = f i j.
Proof.
move=> Hi Hj; rewrite /mentry (nth_map 0%nat) ?size_iota // nth_iota // add0n.
by rewrite (nth_map 0%nat) ?size_iota // nth_iota.
Qed.

Lemma mentry_grid_out r c (f : nat -> nat -> R) i j : (c <= j)%nat ->
  mentry [seq [seq f i j | j <- iota 0 c] | i <- iota 0 r] i j = 0.
Proof.
move=> Hj; rewrite /mentry.
case: (ltnP i r) => Hi.
  by rewrite (nth_map 0%nat) ?size_iota // nth_default // size_map size_iota.
by rewrite (@nth_default _ [::] _ i) ?size_map ?size_iota ?nth_nil.
Qed.

Lemma mentry_out_row (M : mat) i j : (size M <= i)%nat -> mentry M i j = 0.
Proof. by move=> Hi; rewrite /mentry (@nth_default _ [::] M i Hi) ?nth_nil. Qed.

Lemma size_grid r c (f : nat -> nat -> R) :
  size [seq [seq f i j | j <- iota 0 c] | i <- iota 0 r] = r.
Proof. by rewrite size_map size_iota. Qed.

Lemma ncols_grid r c (f : nat -> nat -> R) : (0 < r)%nat ->
  ncols [seq [seq f i j | j <- iota 0 c] | i <- iota 0 r] = c.
Proof. by case: r => // r _; rewrite /ncols /= size_map size_iota. Qed.

Lemma all_rows_grid r c (f : nat -> nat -> R) :
  all (fun row => size row == c) [seq [seq f i j | j <- iota 0 c] | i <- iota 0 r].
Proof. by apply/allP => row /mapP [i _ ->]; rewrite size_map size_iota. Qed.

Lemma diag_of_square (v : seq R) : size (diag_of v) = ncols (diag_of v).
Proof.
rewrite /diag_of size_grid; case: (size v) => [|n] //.
by rewrite ncols_grid.
Qed.

Lemma diag_of_offdiag (v : seq R) i j : i != j -> mentry (diag_of v) i j = 0.
Proof.
move=> Hij; rewrite /diag_of.
case: (ltnP i (size v)) => Hi; last by rewrite mentry_out_row // size_grid.
case: (ltnP j (size v)) => Hj; last by rewrite mentry_grid_out.
by rewrite mentry_grid // (negbTE Hij).
Qed.

Lemma toeplitz_entry (c r : seq R) i j : (i < size c)%nat -> (j < size r)%nat ->
  mentry (toeplitz c r) i j = if (j <= i)%nat then c`_(i - j) else r`_(j - i).
Proof.
move=> Hi Hj; rewrite /toeplitz mentry_grid // nth_cat size_rev.
case: (leqP j i) => Hji.
  have H1 : ((size c).-1 - i + j < size c)%nat.
    by apply/ltP; move/ltP: Hi; move/leP: Hji; rewrite -!minusE -!plusE /=; lia.
  rewrite H1 nth_rev //; congr nth.
  by apply/eqP; rewrite -(eqn_add2r 0) /=; apply/eqP; move/ltP: Hi; move/leP: Hji;
    rewrite -!minusE -!plusE /=; lia.
have H1 : ((size c).-1 - i + j < size c)%nat = false.
  by apply/negbTE; rewrite -leqNgt; apply/leP; move/ltP: Hi; move/ltP: Hji;
    rewrite -!minusE -!plusE /=; lia.
rewrite H1 nth_behead; congr nth.
by move/ltP: Hi; move/ltP: Hji; rewrite -!minusE -!plusE /=; lia.
Qed.

Lemma sum_diag_l n i (d : R) (g : nat -> R) : (i < n)%nat ->
  \sum_(l < n) (if i == l then d else 0) * g l = d * g i.
Proof.
move=> Hi; rewrite (bigD1 (Ordinal Hi)) //= eqxx big1 ?addr0 // => l Hl.
by rewrite ifF ?mul0r // eq_sym; apply/negbTE.
Qed.

Lemma sum_diag_r n j (d : R) (g : nat -> R) : (j < n)%nat ->
  \sum_(l < n) g l * (if (l : nat) == j then d else 0) = g j * d.
Proof.
move=> Hj; rewrite (bigD1 (Ordinal Hj)) //= eqxx big1 ?addr0 // => l Hl.
by rewrite ifF ?mulr0 //; apply/negbTE.
Qed.

Lemma mentry_mscale (M : mat) c i j : mentry (mscale M c) i j = mentry M i j * c.
Proof.
rewrite /mentry /mscale.
case: (ltnP i (size M)) => Hi.
  rewrite (nth_map [::]) //.
  case: (ltnP j (size (nth [::] M i))) => Hj; first by rewrite (nth_map 0).
  rewrite (nth_default 0 (_ : size [seq v * c | v <- nth [::] M i] <= j)) ?size_map //.
  by rewrite (nth_default 0 Hj) mul0r.
rewrite (nth_default [::] Hi).
rewrite (nth_default [::] (_ : size [seq [seq v * c | v <- row] | row <- M] <= i)) ?size_map //.
by rewrite !nth_nil mul0r.
Qed.

Lemma size_diag_of (v : seq R) : size (diag_of v) = size v.
Proof. exact: size_grid. Qed.

Lemma mentry_diag_of (v : seq R) i j : (i < size v)%nat -> (j < size v)%nat ->
  mentry (diag_of v) i j = if i == j then v`_i else 0.
Proof. exact: mentry_grid. Qed.

Lemma toeplitz1_size (k : seq R) : size (toeplitz1 k) = size k.
Proof. exact: size_grid. Qed.

Lemma toeplitz1_ncols (k : seq R) : (0 < size k)%nat -> ncols (toeplitz1 k) = size k.
Proof. exact: ncols_grid. Qed.

Lemma toeplitz1_entry (k : seq R) i j : (i < size k)%nat -> (j < size k)%nat ->
  mentry (toeplitz1 k) i j = k`_(lag i j).
Proof.
move=> Hi Hj; rewrite /toeplitz1 toeplitz_entry // /lag.
case: (leqP j i) => H.
  have -> : (j - i = 0)%nat by apply/eqP; rewrite subn_eq0.
  by rewrite addn0.
have -> : (i - j = 0)%nat by apply/eqP; rewrite subn_eq0 ltnW.
by rewrite add0n.
Qed.

Lemma identity_entry n i j : (i < n)%nat -> (j < n)%nat ->
  mentry (identity n) i j = if i == j then 1 else 0.
Proof. by move=> Hi Hj; rewrite /identity mentry_diag_of ?size_nseq // nth_nseq Hi. Qed.

Lemma last_elem_cons (theta : seq R) : theta <> [::] -> last_elem theta = Some (last 0 theta).
Proof. by case: theta. Qed.

(** ** Claims about the covariance helpers *)

(** C10: [CovarianceMatrixBlockToeplitz] returns, for the generating vectors
    [a = ToeplitzKernel(X, Y)] of length [q] and [b = ToeplitzKernel(Y, X)] of
    length [n], a [q x n] matrix ([q] rows of [n] entries) whose entry
    [(i, j)] is [a[i - j]] when [i >= j] and [b[j - i]] when [j > i]; the
    corner [(0, 0)] is [a[0]]. *)
Theorem BlockToeplitz_entries (Pt : Type)
    (ToeplitzKernel : seq Pt -> seq Pt -> seq R -> bool -> seq R)
    (theta : seq R) (X Y : seq Pt) :
  let a := ToeplitzKernel X Y theta false in
  let b := ToeplitzKernel Y X theta false in
  let K := CovarianceMatrixBlockToeplitz ToeplitzKernel theta X Y in
  [/\ size K = size a, all (fun row => size row == size b) K
    & forall i j, (i < size a)%nat -> (j < size b)%nat ->
        mentry K i j = if (j <= i)%nat then a`_(i - j) else b`_(j - i)].
Proof.
rewrite /CovarianceMatrixBlockToeplitz; split.
- exact: size_grid.
- exact: all_rows_grid.
- by move=> i j Hi Hj; apply: toeplitz_entry.
Qed.

(** ** Further facts on the dense helpers *)

Lemma mentry_out_col (M : mat) i j : all (fun row => size row == size M) M ->
  (size M <= j)%nat -> mentry M i j = 0.
Proof.
move=> /allP Hall Hj; rewrite /mentry.
case: (ltnP i (size M)) => Hi; last by rewrite (nth_default [::] Hi) nth_nil.
by rewrite nth_default // (eqP (Hall _ (mem_nth [::] Hi))).
Qed.

Lemma square_sym (M : mat) : all (fun row => size row == size M) M ->
  (forall i j, (i < size M)%nat -> (j < size M)%nat -> mentry M i j = mentry M j i) ->
  forall i j, mentry M i j = mentry M j i.
Proof.
move=> Hall Hin i j.
case: (ltnP i (size M)) => Hi; case: (ltnP j (size M)) => Hj.
- exact: Hin.
- by rewrite (mentry_out_col _ Hall Hj) mentry_out_row.
- by rewrite (mentry_out_col _ Hall Hi) mentry_out_row.
- by rewrite !mentry_out_row.
Qed.

Lemma lag_sym i j : lag i j = lag j i.
Proof. by rewrite /lag addnC. Qed.

Lemma diag_part_diag_of (d : seq R) : diag_part (diag_of d) = d.
Proof.
rewrite /diag_part -diag_of_square size_diag_of minnn.
apply: (@eq_from_nth _ 0); rewrite size_map size_iota // => i Hi.
by rewrite (nth_map 0%nat) ?size_iota // nth_iota // add0n mentry_diag_of // eqxx.
Qed.

Lemma all_rows_ncols (M : mat) n : all (fun row => size row == n) M ->
  (0 < size M)%nat -> ncols M = n.
Proof.
move=> /allP H HM; rewrite /ncols; apply/eqP; apply: H.
by apply: mem_nth.
Qed.

Lemma toeplitz_rows (c r : seq R) : all (fun row => size row == size r) (toeplitz c r).
Proof. exact: all_rows_grid. Qed.

Lemma toeplitz_size (c r : seq R) : size (toeplitz c r) = size c.
Proof. exact: size_grid. Qed.

Lemma diag_part_toeplitz1 (k : seq R) : diag_part (toeplitz1 k) = nseq (size k) k`_0.
Proof.
case Hk: (size k) => [|n].
  by move/size0nil: Hk => ->.
have Hpos : (0 < size k)%nat by rewrite Hk.
rewrite /diag_part toeplitz1_size toeplitz1_ncols // minnn -Hk.
apply: (@eq_from_nth _ 0); rewrite size_map size_iota ?size_nseq // => i Hi.
rewrite (nth_map 0%nat) ?size_iota // nth_iota // add0n toeplitz1_entry // nth_nseq Hi.
by rewrite /lag subnn.
Qed.

Lemma size_diag_part (M : mat) : size (diag_part M) = minn (size M) (ncols M).
Proof. by rewrite size_map size_iota. Qed.

Lemma nth_diag_part (M : mat) i : (i < minn (size M) (ncols M))%nat ->
  (diag_part M)`_i = mentry M i i.
Proof. by move=> Hi; rewrite (nth_map 0%nat) ?size_iota // nth_iota. Qed.

Lemma diag_of_entry (d : seq R) i j :
  mentry (diag_of d) i j = if (i == j) && (i < size d)%nat then d`_i else 0.
Proof.
case: (ltnP i (size d)) => Hi; last by rewrite andbF mentry_out_row // size_diag_of.
case: (ltnP j (size d)) => Hj; first by rewrite mentry_diag_of // andbT.
rewrite /diag_of mentry_grid_out // andbT ifF //.
by apply/negbTE; rewrite neq_ltn (leq_trans Hi Hj).
Qed.

Lemma all_rows_diag_of (d : seq R) : all (fun row => size row == size d) (diag_of d).
Proof. exact: all_rows_grid. Qed.

(** ** Further properties of the covariance helpers *)

(** [CovarianceMatrixFullToeplitz] returns the [N x N] matrix, [N] the length
    of the kernel vector [k] (with white noise), whose entry [(i, j)] is
    [k[|i - j|]]; the matrix is symmetric. *)
Theorem FullToeplitz_symmetric (Pt : Type)
    (ToeplitzKernel : seq Pt -> seq Pt -> seq R -> bool -> seq R)
    (theta : seq R) (X : seq Pt) :
  let k := ToeplitzKernel X X theta true in
  let K := CovarianceMatrixFullToeplitz ToeplitzKernel theta X in
  [/\ size K = size k, all (fun row => size row == size k) K,
      forall i j, (i < size k)%nat -> (j < size k)%nat -> mentry K i j = k`_(lag i j)
    & forall i j, mentry K i j = mentry K j i].
Proof.
move=> k K.
have Hs : size K = size k by exact: toeplitz_size.
have Hr : all (fun row => size row == size k) K by exact: toeplitz_rows.
have He : forall i j, (i < size k)%nat -> (j < size k)%nat -> mentry K i j = k`_(lag i j).
  by move=> i j Hi Hj; exact: toeplitz1_entry.
split => //.
apply: square_sym; first by rewrite Hs.
by move=> i j; rewrite Hs => Hi Hj; rewrite !He // lag_sym.
Qed.

(** [CovarianceMatrixCornerDiagToeplitz] returns the [N x N] diagonal matrix
    whose diagonal entries all equal [k[0]], the variance term of the kernel
    vector [k] of length [N]; every other entry is zero. *)
Theorem CornerDiagToeplitz_entries (Pt : Type)
    (ToeplitzKernel : seq Pt -> seq Pt -> seq R -> bool -> seq R)
    (theta : seq R) (X : seq Pt) (WhiteNoise : bool) :
  let k := ToeplitzKernel X X theta WhiteNoise in
  let K := CovarianceMatrixCornerDiagToeplitz ToeplitzKernel theta X WhiteNoise in
  [/\ size K = size k, all (fun row => size row == size k) K
    & forall i j, mentry K i j = if (i == j) && (i < size k)%nat then k`_0 else 0].
Proof.
move=> k K.
rewrite /K /CovarianceMatrixCornerDiagToeplitz -/k diag_part_toeplitz1.
split.
- by rewrite size_diag_of size_nseq.
- by have := all_rows_diag_of (nseq (size k) k`_0); rewrite size_nseq.
- move=> i j; rewrite diag_of_entry size_nseq.
  by case: ((i == j) && (i < size k)%nat) / andP => // [[_ Hi]]; rewrite nth_nseq Hi.
Qed.

(** [CovarianceMatrixCornerDiagToeplitz] keeps exactly the diagonal of
    [CovarianceMatrixCornerFullToeplitz] for the same arguments. *)
Theorem CornerDiagToeplitz_diag_part (Pt : Type)
    (ToeplitzKernel : seq Pt -> seq Pt -> seq R -> bool -> seq R)
    (theta : seq R) (X : seq Pt) (WhiteNoise : bool) :
  diag_part (CovarianceMatrixCornerDiagToeplitz ToeplitzKernel theta X WhiteNoise) =
  diag_part (CovarianceMatrixCornerFullToeplitz ToeplitzKernel theta X WhiteNoise).
Proof. exact: diag_part_diag_of. Qed.

(** ** The affine transforms and the white noise of the [...Mult] helpers *)

Lemma matmul_diag_l (v : seq R) (B : mat) cB : size v = size B ->
  matmul (diag_of v) (size v) B cB =
    Some [seq [seq v`_i * mentry B i j | j <- iota 0 cB] | i <- iota 0 (size v)].
Proof.
move=> Hv; rewrite /matmul.
have -> : (size v == size B) = true by rewrite Hv eqxx.
rewrite size_diag_of; congr Some.
apply/eq_in_map => i; rewrite mem_iota add0n => /andP [_ Hi].
apply: eq_map => j; rewrite -Hv.
rewrite (eq_bigr (fun l : 'I_(size v) => (if i == l then v`_i else 0) * mentry B l j)).
  by move=> l _; rewrite mentry_diag_of.
exact: (@sum_diag_l (size v) i v`_i (fun l => mentry B l j) Hi).
Qed.

Lemma matmul_diag_r (A : mat) cA (v : seq R) : cA = size v ->
  matmul A cA (diag_of v) (size v) =
    Some [seq [seq mentry A i j * v`_j | j <- iota 0 (size v)] | i <- iota 0 (size A)].
Proof.
move=> Hv; rewrite /matmul size_diag_of Hv eqxx; congr Some.
apply: eq_map => i; apply/eq_in_map => j; rewrite mem_iota add0n => /andP [_ Hj].
rewrite (eq_bigr (fun l : 'I_(size v) => mentry A i l * (if (l : nat) == j then v`_j else 0))).
  by move=> l _; rewrite mentry_diag_of //; case: eqP => // ->.
exact: (@sum_diag_r (size v) j v`_j (fun l => mentry A i l) Hj).
Qed.

Lemma matmul_diag_l_none (v : seq R) (B : mat) cB : size v != size B ->
  matmul (diag_of v) (size v) B cB = None.
Proof. by rewrite /matmul => /negbTE ->. Qed.

Lemma matmul_diag_r_none (A : mat) cA (v : seq R) : cA != size v ->
  matmul A cA (diag_of v) (size v) = None.
Proof. by rewrite /matmul size_diag_of => /negbTE ->. Qed.

(** [np.diag(u) * B * np.diag(w)] when the shapes agree. *)
Lemma sandwich (u w : seq R) (B : mat) cB :
  size u = size B -> cB = size w ->
  exists DK, matmul (diag_of u) (size u) B cB = Some DK /\
    matmul DK cB (diag_of w) (size w) =
      Some [seq [seq u`_i * mentry B i j * w`_j | j <- iota 0 (size w)] | i <- iota 0 (size u)].
Proof.
move=> Hu Hw; rewrite matmul_diag_l //; eexists; split; first reflexivity.
rewrite matmul_diag_r // size_grid; congr Some.
apply/eq_in_map => i; rewrite mem_iota add0n => /andP [_ Hi].
apply/eq_in_map => j; rewrite mem_iota add0n => /andP [_ Hj].
by rewrite mentry_grid ?Hw.
Qed.

Lemma size_noise N (t : R) : size (mscale (identity N) t) = N.
Proof. by rewrite size_map size_diag_of size_nseq. Qed.

Lemma mentry_noise N (t : R) i j :
  mentry (mscale (identity N) t) i j = if (i == j) && (i < N)%nat then t else 0.
Proof.
rewrite mentry_mscale /identity diag_of_entry size_nseq.
case: ((i == j) && (i < N)%nat) / andP => [[_ Hi]|_]; last by rewrite mul0r.
by rewrite nth_nseq Hi mul1r.
Qed.

(** [Kp += np.identity(N) * t] on an [L x L] matrix: on the diagonal when
    [N = L], on every entry when [N = 1] (broadcast), [ValueError]
    otherwise. *)
Lemma iadd_noise L N (f : nat -> nat -> R) (t : R) :
  iadd [seq [seq f i j | j <- iota 0 L] | i <- iota 0 L] L (mscale (identity N) t) N =
  if N == L then
    Some [seq [seq f i j + (if i == j then t else 0) | j <- iota 0 L] | i <- iota 0 L]
  else if N == 1%nat then Some [seq [seq f i j + t | j <- iota 0 L] | i <- iota 0 L]
  else None.
Proof.
rewrite /iadd size_grid size_noise.
case: (eqVneq N L) => [<-|HNL] /=.
  congr Some; apply/eq_in_map => i; rewrite mem_iota add0n => /andP [_ Hi].
  apply/eq_in_map => j; rewrite mem_iota add0n => /andP [_ Hj].
  rewrite mentry_grid // mentry_noise.
  case: (eqVneq N 1%nat) => [HN|HN] /=.
    move: Hi Hj; rewrite HN !ltnS !leqn0 => /eqP -> /eqP ->.
    by rewrite eqxx.
  by rewrite Hi andbT.
case: (eqVneq N 1%nat) => [HN|HN] //=.
congr Some; apply/eq_in_map => i; rewrite mem_iota add0n => /andP [_ Hi].
apply/eq_in_map => j; rewrite mem_iota add0n => /andP [_ Hj].
by rewrite mentry_grid // mentry_noise HN.
Qed.

(** A mean vector [v * np.ones(n)] has [n] entries, unless [n = 1]. *)
Lemma times_ones_size v n m : times_ones v n = Some m -> size m = n \/ n = 1%nat.
Proof.
case: v => [c|u] /=; first by case=> <-; left; rewrite size_nseq.
case: eqP => [Hu [<-]|_]; first by left.
case: eqP => [_ [<-]|_]; first by left; rewrite size_nseq.
by case: eqP => // Hn [_]; right.
Qed.

Lemma grid_sym L (f : nat -> nat -> R) :
  (forall i j, (i < L)%nat -> (j < L)%nat -> f i j = f j i) ->
  all (fun row => size row == size [seq [seq f i j | j <- iota 0 L] | i <- iota 0 L])
    [seq [seq f i j | j <- iota 0 L] | i <- iota 0 L] /\
  forall i j, mentry [seq [seq f i j | j <- iota 0 L] | i <- iota 0 L] i j =
              mentry [seq [seq f i j | j <- iota 0 L] | i <- iota 0 L] j i.
Proof.
move=> Hf; have Hall := all_rows_grid L L f; rewrite size_grid; split => //.
apply: square_sym; first by rewrite size_grid.
by rewrite size_grid => i j Hi Hj; rewrite !mentry_grid // Hf.
Qed.

Lemma diag_part_grid L (g : nat -> nat -> R) :
  diag_part [seq [seq g i j | j <- iota 0 L] | i <- iota 0 L] = [seq g i i | i <- iota 0 L].
Proof.
case: L => [|L] //.
rewrite /diag_part size_grid ncols_grid // minnn.
apply/eq_in_map => i; rewrite mem_iota add0n => /andP [_ Hi].
by rewrite mentry_grid.
Qed.

Lemma diag_of_grid_diag L (h : nat -> R) i j :
  mentry (diag_of [seq h l | l <- iota 0 L]) i j =
    if (i == j) && (i < L)%nat then h i else 0.
Proof.
rewrite diag_of_entry size_map size_iota.
case: andP => // [[_ Hi]].
by rewrite (nth_map 0%nat) ?size_iota // nth_iota.
Qed.

Section CovarianceFacts.

Variables (Pt Pars Args : Type).
Variable ToeplitzKernel : seq Pt -> seq Pt -> seq R -> bool -> seq R.
Variable mf : Pars -> Args -> mfval.

(** The outcome of [CovarianceMatrixFullToeplitzMult] in closed form. *)
Lemma fullmult_eq theta X mf_pars mf_args :
  let k := ToeplitzKernel X X theta false in
  CovarianceMatrixFullToeplitzMult ToeplitzKernel mf theta X mf_pars mf_args =
  match times_ones (mf mf_pars mf_args) (size X) with
  | None => inl ValueError
  | Some m =>
    if size m == size k then
      match last_elem theta with
      | None => inl IndexError
      | Some t =>
        if size X == size m then
          inr [seq [seq m`_i * mentry (toeplitz1 k) i j * m`_j +
                        (if i == j then t ^+ 2 else 0)
                    | j <- iota 0 (size m)] | i <- iota 0 (size m)]
        else if size X == 1%nat then
          inr [seq [seq m`_i * mentry (toeplitz1 k) i j * m`_j + t ^+ 2
                    | j <- iota 0 (size m)] | i <- iota 0 (size m)]
        else inl ValueError
      end
    else inl ValueError
  end.
Proof.
move=> k; rewrite /CovarianceMatrixFullToeplitzMult -/k.
case: (times_ones _ _) => [m|] //.
case: (eqVneq (size m) (size k)) => Hmk.
- have Hu : size m = size (toeplitz1 k) by rewrite toeplitz1_size.
  have [DK [E1 E2]] := sandwich Hu (esym Hmk).
  rewrite E1 E2; case: (last_elem theta) => // t.
  rewrite iadd_noise.
  by case: (size X == size m); case: (size X == 1%nat).
- by rewrite matmul_diag_l_none // toeplitz1_size.
Qed.

(** The outcome of [CovarianceMatrixCornerFullToeplitzMult] in closed form. *)
Lemma cornerfull_eq theta X mf_pars mf_args_pred (WhiteNoise : bool) :
  let k := ToeplitzKernel X X theta false in
  CovarianceMatrixCornerFullToeplitzMult ToeplitzKernel mf theta X mf_pars
    mf_args_pred WhiteNoise =
  match times_ones (mf mf_pars mf_args_pred) (size X) with
  | None => inl ValueError
  | Some ms =>
    if size ms == size k then
      if WhiteNoise then
        match last_elem theta with
        | None => inl IndexError
        | Some t =>
          if size X == size ms then
            inr [seq [seq ms`_i * mentry (toeplitz1 k) i j * ms`_j +
                          (if i == j then t ^+ 2 else 0)
                      | j <- iota 0 (size ms)] | i <- iota 0 (size ms)]
          else if size X == 1%nat then
            inr [seq [seq ms`_i * mentry (toeplitz1 k) i j * ms`_j + t ^+ 2
                      | j <- iota 0 (size ms)] | i <- iota 0 (size ms)]
          else inl ValueError
        end
      else
        inr [seq [seq ms`_i * mentry (toeplitz1 k) i j * ms`_j
                  | j <- iota 0 (size ms)] | i <- iota 0 (size ms)]
    else inl ValueError
  end.
Proof.
move=> k; rewrite /CovarianceMatrixCornerFullToeplitzMult -/k.
case: (times_ones _ _) => [ms|] //.
case: (eqVneq (size ms) (size k)) => Hmk.
- have Hu : size ms = size (toeplitz1 k) by rewrite toeplitz1_size.
  have [DK [E1 E2]] := sandwich Hu (esym Hmk).
  rewrite E1 E2; case: WhiteNoise => //; case: (last_elem theta) => // t.
  rewrite iadd_noise.
  by case: (size X == size ms); case: (size X == 1%nat).
- by rewrite matmul_diag_l_none // toeplitz1_size.
Qed.

Lemma cornerdiag_cornerfull theta X mf_pars mf_args_pred WhiteNoise :
  CovarianceMatrixCornerDiagToeplitzMult ToeplitzKernel mf theta X mf_pars
    mf_args_pred WhiteNoise =
  match CovarianceMatrixCornerFullToeplitzMult ToeplitzKernel mf theta X mf_pars
          mf_args_pred WhiteNoise with
  | inl e => inl e
  | inr Kp => inr (diag_of (diag_part Kp))
  end.
Proof.
rewrite /CovarianceMatrixCornerDiagToeplitzMult /CovarianceMatrixCornerFullToeplitzMult.
case: (times_ones _ _) => [ms|] //; case: (matmul _ _ _ _) => [DK|] //.
case: (matmul _ _ _ _) => [Kp|] //; case: WhiteNoise => //;
  case: (last_elem theta) => // t; case: (iadd _ _ _ _) => //.
Qed.

(** The outcome of [CovarianceMatrixBlockToeplitzMult] in closed form. *)
Lemma blockmult_eq theta X Y mf_pars mf_args_pred mf_args :
  let a := ToeplitzKernel X Y theta false in
  let b := ToeplitzKernel Y X theta false in
  CovarianceMatrixBlockToeplitzMult ToeplitzKernel mf theta X Y mf_pars mf_args_pred mf_args =
  match times_ones (mf mf_pars mf_args) (size Y),
        times_ones (mf mf_pars mf_args_pred) (size X) with
  | Some m, Some ms =>
    if (size ms == size a) && (size m == size b) then
      inr [seq [seq ms`_i * mentry (toeplitz a b) i j * m`_j
                | j <- iota 0 (size m)] | i <- iota 0 (size ms)]
    else inl ValueError
  | _, _ => inl ValueError
  end.
Proof.
move=> a b; rewrite /CovarianceMatrixBlockToeplitzMult -/a -/b.
case: (times_ones _ _) => [m|] //; case: (times_ones _ _) => [ms|] //.
case: (eqVneq (size ms) (size a)) => Hsa /=; last first.
  by rewrite matmul_diag_l_none // toeplitz_size.
case: (eqVneq (size m) (size b)) => Hmb.
- have Hu : size ms = size (toeplitz a b) by rewrite toeplitz_size.
  by have [DK [E1 E2]] := sandwich Hu (esym Hmb); rewrite E1 E2.
- have Hu : size ms = size (toeplitz a b) by rewrite toeplitz_size.
  rewrite matmul_diag_l //= matmul_diag_r_none //.
  by rewrite eq_sym.
Qed.

End CovarianceFacts.

(** ** Claims about the covariance helpers with a vector mean *)

(** C8: whenever [CovarianceMatrixCornerDiagToeplitzMult] returns a matrix,
    with or without white noise and for a scalar or a vector mean, it is
    square and every entry off the diagonal is exactly zero. *)
Theorem CornerDiag_diagonal (Pt Pars Args : Type)
    (ToeplitzKernel : seq Pt -> seq Pt -> seq R -> bool -> seq R)
    (mf : Pars -> Args -> mfval) (theta : seq R) (X : seq Pt)
    (mf_pars : Pars) (mf_args_pred : Args) (WhiteNoise : bool) (M : mat) :
  CovarianceMatrixCornerDiagToeplitzMult ToeplitzKernel mf theta X mf_pars
    mf_args_pred WhiteNoise = inr M ->
  size M = ncols M /\ forall i j, i != j -> mentry M i j = 0.
Proof.
rewrite cornerdiag_cornerfull.
case: (CovarianceMatrixCornerFullToeplitzMult _ _ _ _ _ _ _) => // Kp [<-].
by split; [exact: diag_of_square | exact: diag_of_offdiag].
Qed.

Lemma CornerDiag_diagonal_witness :
  exists M,
    CovarianceMatrixCornerDiagToeplitzMult
      (fun (_ _ : seq nat) (_ : seq R) (_ : bool) => [:: 2%:R; 1] : seq R)
      (fun (_ _ : unit) => MArray [:: 1; 2%:R]) [:: 1] [:: 0%nat; 1%nat] tt tt true = inr M /\
    (size M = ncols M /\ forall i j, i != j -> mentry M i j = 0).
Proof.
set F := CovarianceMatrixCornerDiagToeplitzMult _ _ _ _ _ _ _.
have E : F = inr (if F is inr M then M else [::]) by rewrite /F; reflexivity.
by exists (if F is inr M then M else [::]); split; [exact: E | exact: CornerDiag_diagonal E].
Defined.

(** C9: in [CovarianceMatrixFullToeplitzMult], for a non-empty [theta], a
    kernel vector [k = ToeplitzKernel(X, X, white_noise=False)] of length
    [N = X.shape[0]] and a mean [m = mf(mf_pars, mf_args) * np.ones(N)] of
    length [N] (a scalar or a vector mean), the result is an [N x N] matrix
    with [Kp[i][j] = m[i] * m[j] * k[|i - j|] + (theta[-1]^2 if i == j else 0)]
    for all [i, j < N]: the white noise is added after the affine transform
    and is not scaled by the mean. *)
Theorem FullToeplitzMult_entries (Pt Pars Args : Type)
    (ToeplitzKernel : seq Pt -> seq Pt -> seq R -> bool -> seq R)
    (mf : Pars -> Args -> mfval) (theta : seq R) (X : seq Pt)
    (mf_pars : Pars) (mf_args : Args) (m : seq R) :
  theta <> [::] -> size (ToeplitzKernel X X theta false) = size X ->
  times_ones (mf mf_pars mf_args) (size X) = Some m -> size m = size X ->
  let k := ToeplitzKernel X X theta false in
  exists Kp : mat,
    [/\ CovarianceMatrixFullToeplitzMult ToeplitzKernel mf theta X mf_pars mf_args = inr Kp,
        size Kp = size X, all (fun row => size row == size X) Kp
      & forall i j, (i < size X)%nat -> (j < size X)%nat ->
          mentry Kp i j = m`_i * m`_j * k`_(lag i j) +
                          (if i == j then last 0 theta ^+ 2 else 0)].
Proof.
move=> Htheta Hk Hm HmX k.
rewrite fullmult_eq Hm HmX Hk eqxx (last_elem_cons Htheta) ?eqxx.
eexists; split; first reflexivity.
- by rewrite size_grid.
- exact: all_rows_grid.
- move=> i j Hi Hj.
  rewrite mentry_grid ?HmX // toeplitz1_entry ?Hk //.
  by rewrite mulrAC.
Qed.

Lemma FullToeplitzMult_entries_witness :
  exists Kp : mat,
    [/\ CovarianceMatrixFullToeplitzMult
          (fun (_ _ : seq nat) (_ : seq R) (_ : bool) => [:: 2%:R; 1] : seq R)
          (fun (_ _ : unit) => MArray [:: 1; 3%:R]) [:: 1; 1] [:: 0%nat; 1%nat] tt tt = inr Kp,
        size Kp = size [:: 0%nat; 1%nat], all (fun row => size row == size [:: 0%nat; 1%nat]) Kp
      & forall i j, (i < size [:: 0%nat; 1%nat])%nat -> (j < size [:: 0%nat; 1%nat])%nat ->
          mentry Kp i j =
            ([:: 1; 3%:R] : seq R)`_i * ([:: 1; 3%:R] : seq R)`_j *
              ([:: 2%:R; 1] : seq R)`_(lag i j) +
            (if i == j then last 0 ([:: 1; 1] : seq R) ^+ 2 else 0)].
Proof.
apply: FullToeplitzMult_entries; [by [] | by [] | by [] | by []].
Defined.

(** ** Further properties of the covariance helpers with a vector mean *)

(** X4: every matrix returned by [CovarianceMatrixFullToeplitzMult] is
    square and symmetric, also when a one-point input broadcasts the white
    noise over a longer mean vector. *)
Theorem FullToeplitzMult_symmetric (Pt Pars Args : Type)
    (ToeplitzKernel : seq Pt -> seq Pt -> seq R -> bool -> seq R)
    (mf : Pars -> Args -> mfval) (theta : seq R) (X : seq Pt)
    (mf_pars : Pars) (mf_args : Args) (Kp : mat) :
  CovarianceMatrixFullToeplitzMult ToeplitzKernel mf theta X mf_pars mf_args = inr Kp ->
  all (fun row => size row == size Kp) Kp /\ forall i j, mentry Kp i j = mentry Kp j i.
Proof.
rewrite fullmult_eq; set k := ToeplitzKernel X X theta false.
case: (times_ones _ _) => [m|] //.
case: (eqVneq (size m) (size k)) => Hmk //.
case: (last_elem theta) => // t.
have Hs : forall i j, (i < size m)%nat -> (j < size m)%nat ->
    m`_i * mentry (toeplitz1 k) i j * m`_j = m`_j * mentry (toeplitz1 k) j i * m`_i.
  move=> i j Hi Hj; rewrite !toeplitz1_entry -?Hmk // lag_sym.
  by rewrite mulrAC [RHS]mulrAC (mulrC m`_i).
case: ifP => _.
  by case=> <-; apply: grid_sym => i j Hi Hj; rewrite Hs // eq_sym.
case: ifP => _ // [<-].
by apply: grid_sym => i j Hi Hj; rewrite Hs.
Qed.

Lemma FullToeplitzMult_symmetric_witness :
  exists Kp : mat,
    CovarianceMatrixFullToeplitzMult
      (fun (_ _ : seq nat) (_ : seq R) (_ : bool) => [:: 2%:R; 1] : seq R)
      (fun (_ _ : unit) => MArray [:: 1; 2%:R]) [:: 1] [:: 0%nat; 1%nat] tt tt = inr Kp /\
    (all (fun row => size row == size Kp) Kp /\ forall i j, mentry Kp i j = mentry Kp j i).
Proof.
set F := CovarianceMatrixFullToeplitzMult _ _ _ _ _ _.
have E : F = inr (if F is inr M then M else [::]) by rewrite /F; reflexivity.
by exists (if F is inr M then M else [::]); split; [exact: E | exact: FullToeplitzMult_symmetric E].
Defined.

(** X5: [CovarianceMatrixFullToeplitzMult] raises [IndexError] exactly when
    [theta] is empty and the mean vector and the kernel vector have the same
    length: [theta[-1]] is read only after the affine transform succeeds. *)
Theorem FullToeplitzMult_IndexError_iff (Pt Pars Args : Type)
    (ToeplitzKernel : seq Pt -> seq Pt -> seq R -> bool -> seq R)
    (mf : Pars -> Args -> mfval) (theta : seq R) (X : seq Pt)
    (mf_pars : Pars) (mf_args : Args) :
  CovarianceMatrixFullToeplitzMult ToeplitzKernel mf theta X mf_pars mf_args = inl IndexError <->
  theta = [::] /\
  exists m, times_ones (mf mf_pars mf_args) (size X) = Some m /\
            size m = size (ToeplitzKernel X X theta false).
Proof.
rewrite fullmult_eq.
case: (times_ones _ _) => [m|]; last by split => // [[_ [m0 []]]].
case: (eqVneq (size m) (size (ToeplitzKernel X X theta false))) => Hmk; last first.
  by split => // [[_ [m0 [[<-] H]]]]; move/eqP: Hmk.
case: (eqVneq theta [::]) => [Ht|Ht].
  by rewrite Ht in Hmk *; split => // _; split => //; exists m.
rewrite last_elem_cons; first by move/eqP: Ht.
have HR : ~ (theta = [::] /\ exists m0, Some m = Some m0 /\
                size m0 = size (ToeplitzKernel X X theta false)).
  by case=> E _; rewrite E in Ht.
by case: ifP => _; [|case: ifP => _]; split => // /HR.
Qed.

(** X6: [CovarianceMatrixFullToeplitzMult] raises [ValueError] exactly when
    the mean [mf(mf_pars, mf_args) * np.ones(N)] cannot be broadcast, or when
    its length differs from that of the kernel vector; the white-noise
    addition never raises it. *)
Theorem FullToeplitzMult_ValueError_iff (Pt Pars Args : Type)
    (ToeplitzKernel : seq Pt -> seq Pt -> seq R -> bool -> seq R)
    (mf : Pars -> Args -> mfval) (theta : seq R) (X : seq Pt)
    (mf_pars : Pars) (mf_args : Args) :
  CovarianceMatrixFullToeplitzMult ToeplitzKernel mf theta X mf_pars mf_args = inl ValueError <->
  times_ones (mf mf_pars mf_args) (size X) = None \/
  exists m, times_ones (mf mf_pars mf_args) (size X) = Some m /\
            size m <> size (ToeplitzKernel X X theta false).
Proof.
rewrite fullmult_eq.
case Hm: (times_ones _ _) => [m|]; last by split => // _; left.
case: (eqVneq (size m) (size (ToeplitzKernel X X theta false))) => Hmk; last first.
  by split => // _; right; exists m; split => //; apply/eqP.
have HR : ~ (Some m = None \/ exists m0, Some m = Some m0 /\
                size m0 <> size (ToeplitzKernel X X theta false)).
  by case=> // [[m0 [[<-]]]].
case: (last_elem theta) => [t|]; last by split => // /HR.
have [HmX|HX1] := times_ones_size Hm.
  by rewrite HmX eqxx; split => // /HR.
by rewrite HX1 eqxx; case: ifP => _; split => // /HR.
Qed.

(** X7: in [CovarianceMatrixCornerFullToeplitzMult], for a kernel vector [k]
    and a mean [ms = mf(mf_pars, mf_args_pred) * np.ones(N)] of length
    [N = X.shape[0]], and a non-empty [theta] when [WhiteNoise] holds, the
    result is an [N x N] matrix with
    [Kp[i][j] = ms[i] * ms[j] * k[|i - j|] + (theta[-1]^2 if WhiteNoise and i == j else 0)]. *)
Theorem CornerFullToeplitzMult_entries (Pt Pars Args : Type)
    (ToeplitzKernel : seq Pt -> seq Pt -> seq R -> bool -> seq R)
    (mf : Pars -> Args -> mfval) (theta : seq R) (X : seq Pt)
    (mf_pars : Pars) (mf_args_pred : Args) (WhiteNoise : bool) (ms : seq R) :
  (WhiteNoise -> theta <> [::]) -> size (ToeplitzKernel X X theta false) = size X ->
  times_ones (mf mf_pars mf_args_pred) (size X) = Some ms -> size ms = size X ->
  let k := ToeplitzKernel X X theta false in
  exists Kp : mat,
    [/\ CovarianceMatrixCornerFullToeplitzMult ToeplitzKernel mf theta X mf_pars
          mf_args_pred WhiteNoise = inr Kp,
        size Kp = size X, all (fun row => size row == size X) Kp
      & forall i j, (i < size X)%nat -> (j < size X)%nat ->
          mentry Kp i j = ms`_i * ms`_j * k`_(lag i j) +
                          (if WhiteNoise && (i == j) then last 0 theta ^+ 2 else 0)].
Proof.
move=> Htheta Hk Hm HmX k.
rewrite cornerfull_eq Hm HmX Hk eqxx.
case: WhiteNoise Htheta => Htheta /=.
- rewrite (last_elem_cons (Htheta isT)) ?eqxx.
  eexists; split; first reflexivity; [by rewrite size_grid | exact: all_rows_grid |].
  move=> i j Hi Hj; rewrite mentry_grid ?HmX // toeplitz1_entry ?Hk //.
  by rewrite mulrAC.
- eexists; split; first reflexivity; [by rewrite size_grid | exact: all_rows_grid |].
  move=> i j Hi Hj; rewrite mentry_grid ?HmX // toeplitz1_entry ?Hk //.
  by rewrite mulrAC addr0.
Qed.

Lemma CornerFullToeplitzMult_entries_witness :
  exists Kp : mat,
    [/\ CovarianceMatrixCornerFullToeplitzMult
          (fun (_ _ : seq nat) (_ : seq R) (_ : bool) => [:: 2%:R; 1] : seq R)
          (fun (_ _ : unit) => MArray [:: 1; 3%:R]) [:: 1; 1] [:: 0%nat; 1%nat] tt tt true = inr Kp,
        size Kp = size [:: 0%nat; 1%nat], all (fun row => size row == size [:: 0%nat; 1%nat]) Kp
      & forall i j, (i < size [:: 0%nat; 1%nat])%nat -> (j < size [:: 0%nat; 1%nat])%nat ->
          mentry Kp i j =
            ([:: 1; 3%:R] : seq R)`_i * ([:: 1; 3%:R] : seq R)`_j *
              ([:: 2%:R; 1] : seq R)`_(lag i j) +
            (if true && (i == j) then last 0 ([:: 1; 1] : seq R) ^+ 2 else 0)].
Proof.
apply: CornerFullToeplitzMult_entries; [by [] | by [] | by [] | by []].
Defined.

(** X8: [CovarianceMatrixCornerFullToeplitzMult] raises [IndexError] exactly
    when [WhiteNoise] holds, [theta] is empty and the affine transform
    succeeds: without white noise [theta[-1]] is never read. *)
Theorem CornerFullToeplitzMult_IndexError_iff (Pt Pars Args : Type)
    (ToeplitzKernel : seq Pt -> seq Pt -> seq R -> bool -> seq R)
    (mf : Pars -> Args -> mfval) (theta : seq R) (X : seq Pt)
    (mf_pars : Pars) (mf_args_pred : Args) (WhiteNoise : bool) :
  CovarianceMatrixCornerFullToeplitzMult ToeplitzKernel mf theta X mf_pars
    mf_args_pred WhiteNoise = inl IndexError <->
  [/\ WhiteNoise, theta = [::] &
      exists ms, times_ones (mf mf_pars mf_args_pred) (size X) = Some ms /\
                 size ms = size (ToeplitzKernel X X theta false)].
Proof.
rewrite cornerfull_eq.
case: (times_ones _ _) => [ms|]; last by split => // [[_ _ [m0 []]]].
case: (eqVneq (size ms) (size (ToeplitzKernel X X theta false))) => Hmk; last first.
  by split => // [[_ _ [m0 [[<-] H]]]]; move/eqP: Hmk.
case: WhiteNoise; last by split => // [[]].
case: (eqVneq theta [::]) => [Ht|Ht].
  by rewrite Ht in Hmk *; split => // _; split => //; exists ms.
rewrite last_elem_cons; first by move/eqP: Ht.
have HR : ~ [/\ true, theta = [::] & exists m0, Some ms = Some m0 /\
                size m0 = size (ToeplitzKernel X X theta false)].
  by case=> _ E _; rewrite E in Ht.
by case: ifP => _; [|case: ifP => _]; split => // /HR.
Qed.

(** X9: in [CovarianceMatrixCornerDiagToeplitzMult], under the hypotheses
    of X7, the result is the [N x N] diagonal matrix whose entry [(i, i)] is
    [ms[i]^2 * k[0]], plus [theta[-1]^2] when [WhiteNoise] holds. *)
Theorem CornerDiagToeplitzMult_entries (Pt Pars Args : Type)
    (ToeplitzKernel : seq Pt -> seq Pt -> seq R -> bool -> seq R)
    (mf : Pars -> Args -> mfval) (theta : seq R) (X : seq Pt)
    (mf_pars : Pars) (mf_args_pred : Args) (WhiteNoise : bool) (ms : seq R) :
  (WhiteNoise -> theta <> [::]) -> size (ToeplitzKernel X X theta false) = size X ->
  times_ones (mf mf_pars mf_args_pred) (size X) = Some ms -> size ms = size X ->
  let k := ToeplitzKernel X X theta false in
  exists M : mat,
    [/\ CovarianceMatrixCornerDiagToeplitzMult ToeplitzKernel mf theta X mf_pars
          mf_args_pred WhiteNoise = inr M,
        size M = size X, all (fun row => size row == size X) M
      & forall i j, mentry M i j =
          if (i == j) && (i < size X)%nat then
            ms`_i * ms`_i * k`_0 + (if WhiteNoise then last 0 theta ^+ 2 else 0)
          else 0].
Proof.
move=> Htheta Hk Hm HmX k.
rewrite cornerdiag_cornerfull cornerfull_eq Hm HmX Hk eqxx.
have Hd : forall i, (i < size X)%nat -> mentry (toeplitz1 k) i i = k`_0.
  by move=> i Hi; rewrite toeplitz1_entry ?Hk // /lag subnn.
have Hr : forall d : seq R, size d = size X ->
    all (fun row => size row == size X) (diag_of d).
  by move=> d <-; exact: all_rows_diag_of.
case: WhiteNoise Htheta => Htheta /=.
- rewrite (last_elem_cons (Htheta isT)) ?eqxx diag_part_grid.
  eexists; split; first reflexivity.
  + by rewrite size_diag_of size_map size_iota.
  + by apply: Hr; rewrite size_map size_iota.
  + move=> i j; rewrite diag_of_grid_diag.
    case: andP => // [[_ Hi]]; rewrite Hd // eqxx.
    by rewrite mulrAC.
- rewrite diag_part_grid.
  eexists; split; first reflexivity.
  + by rewrite size_diag_of size_map size_iota.
  + by apply: Hr; rewrite size_map size_iota.
  + move=> i j; rewrite diag_of_grid_diag.
    case: andP => // [[_ Hi]]; rewrite Hd //.
    by rewrite mulrAC addr0.
Qed.

Lemma CornerDiagToeplitzMult_entries_witness :
  exists M : mat,
    [/\ CovarianceMatrixCornerDiagToeplitzMult
          (fun (_ _ : seq nat) (_ : seq R) (_ : bool) => [:: 2%:R; 1] : seq R)
          (fun (_ _ : unit) => MArray [:: 1; 3%:R]) [:: 1; 1] [:: 0%nat; 1%nat] tt tt true = inr M,
        size M = size [:: 0%nat; 1%nat], all (fun row => size row == size [:: 0%nat; 1%nat]) M
      & forall i j, mentry M i j =
          if (i == j) && (i < size [:: 0%nat; 1%nat])%nat then
            ([:: 1; 3%:R] : seq R)`_i * ([:: 1; 3%:R] : seq R)`_i * ([:: 2%:R; 1] : seq R)`_0 +
            (if true then last 0 ([:: 1; 1] : seq R) ^+ 2 else 0)
          else 0].
Proof.
apply: CornerDiagToeplitzMult_entries; [by [] | by [] | by [] | by []].
Defined.

(** X10: in [CovarianceMatrixBlockToeplitzMult], for generating vectors
    [a = ToeplitzKernel(X, Y)] and [b = ToeplitzKernel(Y, X)], a mean
    [m = mf(mf_pars, mf_args) * np.ones(Y.shape[0])] of length [size b] and a
    mean [ms = mf(mf_pars, mf_args_pred) * np.ones(X.shape[0])] of length
    [size a], the result is a [size a x size b] matrix with entry
    [ms[i] * m[j] * (a[i - j] if j <= i else b[j - i])]; no white noise is
    added, and [X] or [Y] may be empty. *)
Theorem BlockToeplitzMult_entries (Pt Pars Args : Type)
    (ToeplitzKernel : seq Pt -> seq Pt -> seq R -> bool -> seq R)
    (mf : Pars -> Args -> mfval) (theta : seq R) (X Y : seq Pt)
    (mf_pars : Pars) (mf_args_pred mf_args : Args) (m ms : seq R) :
  times_ones (mf mf_pars mf_args) (size Y) = Some m ->
  times_ones (mf mf_pars mf_args_pred) (size X) = Some ms ->
  size ms = size (ToeplitzKernel X Y theta false) ->
  size m = size (ToeplitzKernel Y X theta false) ->
  let a := ToeplitzKernel X Y theta false in
  let b := ToeplitzKernel Y X theta false in
  exists Kp : mat,
    [/\ CovarianceMatrixBlockToeplitzMult ToeplitzKernel mf theta X Y mf_pars
          mf_args_pred mf_args = inr Kp,
        size Kp = size a, all (fun row => size row == size b) Kp
      & forall i j, (i < size a)%nat -> (j < size b)%nat ->
          mentry Kp i j = ms`_i * m`_j * (if (j <= i)%nat then a`_(i - j) else b`_(j - i))].
Proof.
move=> Hm Hms Ha Hb a b.
rewrite blockmult_eq Hm Hms Ha Hb !eqxx /=.
eexists; split; first reflexivity; [by rewrite size_grid | exact: all_rows_grid |].
move=> i j Hi Hj; rewrite mentry_grid // toeplitz_entry //.
by rewrite mulrAC.
Qed.

Lemma BlockToeplitzMult_entries_witness :
  exists Kp : mat,
    [/\ CovarianceMatrixBlockToeplitzMult
          (fun (_ _ : seq nat) (_ : seq R) (_ : bool) => [:: 2%:R; 1] : seq R)
          (fun (_ _ : unit) => MArray [:: 1; 3%:R]) [:: 1] [:: 0%nat; 1%nat] [:: 2%nat; 3%nat]
          tt tt tt = inr Kp,
        size Kp = size ([:: 2%:R; 1] : seq R), all (fun row => size row == size ([:: 2%:R; 1] : seq R)) Kp
      & forall i j, (i < 2)%nat -> (j < 2)%nat ->
          mentry Kp i j = ([:: 1; 3%:R] : seq R)`_i * ([:: 1; 3%:R] : seq R)`_j *
            (if (j <= i)%nat then ([:: 2%:R; 1] : seq R)`_(i - j)
             else ([:: 2%:R; 1] : seq R)`_(j - i))].
Proof.
apply: BlockToeplitzMult_entries; [by [] | by [] | by [] | by []].
Defined.

(** X11: [CovarianceMatrixBlockToeplitzMult] fails only with [ValueError],
    and exactly when one of the two means cannot be broadcast or their
    lengths do not match those of [a] and [b]. *)
Theorem BlockToeplitzMult_errors (Pt Pars Args : Type)
    (ToeplitzKernel : seq Pt -> seq Pt -> seq R -> bool -> seq R)
    (mf : Pars -> Args -> mfval) (theta : seq R) (X Y : seq Pt)
    (mf_pars : Pars) (mf_args_pred mf_args : Args) (e : exc) :
  CovarianceMatrixBlockToeplitzMult ToeplitzKernel mf theta X Y mf_pars
    mf_args_pred mf_args = inl e <->
  e = ValueError /\
  ~ (exists m ms,
       [/\ times_ones (mf mf_pars mf_args) (size Y) = Some m,
           times_ones (mf mf_pars mf_args_pred) (size X) = Some ms,
           size ms = size (ToeplitzKernel X Y theta false)
         & size m = size (ToeplitzKernel Y X theta false)]).
Proof.
rewrite blockmult_eq.
case: (times_ones (mf mf_pars mf_args) (size Y)) => [m|]; last first.
  split; last by case=> ->.
  by case=> <-; split => // [[m0 [ms0 []]]].
case: (times_ones (mf mf_pars mf_args_pred) (size X)) => [ms|]; last first.
  split; last by case=> ->.
  by case=> <-; split => // [[m0 [ms0 [_ []]]]].
case: ifP => Hs.
  split => // [[_ HP]]; case: HP; exists m, ms.
  by case/andP: Hs => /eqP Ha /eqP Hb.
split; last by case=> ->.
case=> <-; split => // [[m0 [ms0 [[<-] [<-] Ha Hb]]]].
by move: Hs; rewrite Ha Hb !eqxx.
Qed.

(** X12: when [X] has a single point, the mean is a vector [u] and the
    kernel vector has the length of [u], [CovarianceMatrixFullToeplitzMult]
    returns a [size u x size u] matrix and [np.identity(1) * theta[-1]^2]
    is broadcast: [theta[-1]^2] is added to every entry, not only to the
    diagonal. *)
Theorem FullToeplitzMult_broadcast_noise (Pt Pars Args : Type)
    (ToeplitzKernel : seq Pt -> seq Pt -> seq R -> bool -> seq R)
    (mf : Pars -> Args -> mfval) (theta : seq R) (X : seq Pt)
    (mf_pars : Pars) (mf_args : Args) (u : seq R) :
  size X = 1%nat -> mf mf_pars mf_args = MArray u ->
  size (ToeplitzKernel X X theta false) = size u -> theta <> [::] ->
  let k := ToeplitzKernel X X theta false in
  exists Kp : mat,
    [/\ CovarianceMatrixFullToeplitzMult ToeplitzKernel mf theta X mf_pars mf_args = inr Kp,
        size Kp = size u, all (fun row => size row == size u) Kp
      & forall i j, (i < size u)%nat -> (j < size u)%nat ->
          mentry Kp i j = u`_i * u`_j * k`_(lag i j) + last 0 theta ^+ 2].
Proof.
move=> HX Hmf Hk Htheta k.
have Hm : times_ones (mf mf_pars mf_args) (size X) = Some u.
  by rewrite Hmf HX /=; case: ifP => // ->.
rewrite fullmult_eq Hm Hk eqxx (last_elem_cons Htheta) HX.
case: (eqVneq 1%nat (size u)) => [Hu|Hu] /=.
- eexists; split; first reflexivity; [by rewrite size_grid | exact: all_rows_grid |].
  move=> i j; rewrite -Hu !ltnS !leqn0 => /eqP -> /eqP ->.
  by rewrite mentry_grid -?Hu // toeplitz1_entry ?Hk -?Hu // mulrAC.
- eexists; split; first reflexivity; [by rewrite size_grid | exact: all_rows_grid |].
  move=> i j Hi Hj; rewrite mentry_grid // toeplitz1_entry ?Hk //.
  by rewrite mulrAC.
Qed.

Lemma FullToeplitzMult_broadcast_noise_witness :
  exists Kp : mat,
    [/\ CovarianceMatrixFullToeplitzMult
          (fun (_ _ : seq nat) (_ : seq R) (_ : bool) => [:: 2%:R; 1] : seq R)
          (fun (_ _ : unit) => MArray [:: 1; 3%:R]) [:: 1] [:: 0%nat] tt tt = inr Kp,
        size Kp = size ([:: 1; 3%:R] : seq R),
        all (fun row => size row == size ([:: 1; 3%:R] : seq R)) Kp
      & forall i j, (i < 2)%nat -> (j < 2)%nat ->
          mentry Kp i j = ([:: 1; 3%:R] : seq R)`_i * ([:: 1; 3%:R] : seq R)`_j *
            ([:: 2%:R; 1] : seq R)`_(lag i j) + last 0 ([:: 1] : seq R) ^+ 2].
Proof.
apply: FullToeplitzMult_broadcast_noise; [by [] | by [] | by [] | by []].
Defined.
